(** * Tennisbot front end: the query surface and the refresh loop of [main_api.py]

    The module [main_api.py] keeps one global, [tennis_matches], which a
    background coroutine ([fetch_tennis_data]) rebinds once per successful
    cycle and which two request handlers ([get_tennis_matches],
    [get_match_details]) read.  The development below embeds

    - the Python values the handlers build ([pyval], dictionaries as [gmap]),
    - the statements of the three functions as programs over a small set of
      primitive effects ([prog]): logging, reading and rebinding the global,
      reading the clock, awaiting an adapter, calling the merger, sleeping,
    - an executor ([exec]) and a one-step machine ([step], [loop_step]) for
      those programs,

    and then states and proves the properties of the specification. *)

From Stdlib Require Import ZArith String List.
From stdpp Require Import base strings pretty gmap list.

(** ** Python values *)

Module Py.

(** The JSON-like values that travel through the handlers.  A [dict] with
    string keys is a [gmap string pyval]; a tuple is kept apart from a list
    because [get_match_details] returns one ([{...}, 404]). *)
#[warnings="-register-all"]
Inductive pyval : Type :=
| VNone
| VBool (b : bool)
| VInt (z : Z)
| VStr (s : string)
| VList (l : list pyval)
| VTuple (l : list pyval)
| VDict (d : gmap string pyval).

(** [d.get(key)]: the value under [key], or [None] when the key is absent. *)
Definition dict_get (d : gmap string pyval) (key : string) : pyval :=
  default VNone (d !! key).

(** [v == s] for a [str] [s]: only a string with the same characters is
    equal to a string; an [int], [None], a list or a dict never is. *)
Definition eq_str (v : pyval) (s : string) : bool :=
  match v with
  | VStr s' => bool_decide (s' = s)
  | _ => false
  end.

(** The classes an exception object can belong to, as far as
    [except Exception] can tell them apart: the four built-in classes that
    derive from [BaseException] but not from [Exception], and everything
    else (named by its class). *)
Inductive exc_class : Type :=
| KeyboardInterrupt
| SystemExit
| GeneratorExit
| CancelledError
| ExceptionSubclass (name : string).

Record exn : Type := Exn { exn_class : exc_class; exn_str : string }.

(** [isinstance(e, Exception)] *)
Definition isinstance_Exception (e : exn) : bool :=
  match exn_class e with
  | ExceptionSubclass _ => true
  | _ => false
  end.

(** What a call comes back with: a value, or a raised exception. *)
Inductive outcome (A : Type) : Type :=
| Returns (a : A)
| Raises (e : exn).
Arguments Returns {A} a.
Arguments Raises {A} e.

(** A naive [datetime] (what [datetime.now()] yields). *)
Record datetime : Type := Datetime {
  year : N; month : N; day : N;
  hour : N; minute : N; second : N; microsecond : N
}.

(** [%0<w>d] for a natural number. *)
Definition zero_pad (w : nat) (n : N) : string :=
  let s := pretty n in
  String.concat "" (replicate (w - String.length s) "0") +:+ s.

(** [datetime.isoformat()]: [YYYY-MM-DDTHH:MM:SS], followed by [.ffffff]
    when the microsecond field is not zero. *)
Definition isoformat (t : datetime) : string :=
  zero_pad 4 (year t) +:+ "-" +:+ zero_pad 2 (month t) +:+ "-" +:+ zero_pad 2 (day t)
  +:+ "T" +:+ zero_pad 2 (hour t) +:+ ":" +:+ zero_pad 2 (minute t) +:+ ":"
  +:+ zero_pad 2 (second t)
  +:+ (if bool_decide (microsecond t = 0%N) then ""
       else "." +:+ zero_pad 6 (microsecond t)).

End Py.
Export Py.

(** ** Programs over the primitive effects of [main_api.py] *)

(** A match entity and a raw provider record are both Python dictionaries;
    the global [tennis_matches] and the adapters' results are lists of them. *)
Abbreviation entity := (gmap string pyval).

(** The two provider adapters, [BetsapiPrematch()] and
    [RapidInplayOddsFetcher()]. *)
Inductive adapter : Type := BetsapiPrematch | RapidInplayOddsFetcher.

Inductive level : Type := INFO | ERROR.

(** One constructor per effect the three functions perform.  Awaiting an
    adapter and calling the merger hand the continuation an [outcome]: the
    call is code outside this module and may raise. *)
Inductive prog (A : Type) : Type :=
| Ret (a : A)
| Raise (e : exn)
| Logger (lvl : level) (msg : string) (k : prog A)
| PrintExc (k : prog A)
| GlobalLoad (k : list entity → prog A)
| GlobalStore (v : list entity) (k : prog A)
| DatetimeNow (k : datetime → prog A)
| AwaitGetTennisData (a : adapter) (k : outcome (list entity) → prog A)
| CallMerge (bets_data rapid_data : list entity) (k : outcome (list entity) → prog A)
| AwaitSleep (secs : Z) (k : prog A).
Arguments Ret {A} a.
Arguments Raise {A} e.
Arguments Logger {A} lvl msg k.
Arguments PrintExc {A} k.
Arguments GlobalLoad {A} k.
Arguments GlobalStore {A} v k.
Arguments DatetimeNow {A} k.
Arguments AwaitGetTennisData {A} a k.
Arguments CallMerge {A} bets_data rapid_data k.
Arguments AwaitSleep {A} secs k.

(** Sequencing: run [p], then [f] on its value; a raised exception skips [f]. *)
Fixpoint bind {A B : Type} (p : prog A) (f : A → prog B) : prog B :=
  match p with
  | Ret a => f a
  | Raise e => Raise e
  | Logger lvl msg k => Logger lvl msg (bind k f)
  | PrintExc k => PrintExc (bind k f)
  | GlobalLoad k => GlobalLoad (λ g, bind (k g) f)
  | GlobalStore v k => GlobalStore v (bind k f)
  | DatetimeNow k => DatetimeNow (λ t, bind (k t) f)
  | AwaitGetTennisData a k => AwaitGetTennisData a (λ o, bind (k o) f)
  | CallMerge x y k => CallMerge x y (λ o, bind (k o) f)
  | AwaitSleep n k => AwaitSleep n (bind k f)
  end.

#[global] Instance prog_ret : MRet prog := @Ret.
#[global] Instance prog_bind : MBind prog := λ A B f p, bind p f.

(** [try: p  except Exception as e: h e].  An exception raised by [p] is
    handled when it is an instance of [Exception] and propagates otherwise;
    an exception raised by the handler itself is not handled again. *)
Fixpoint try_except {A : Type} (p : prog A) (h : exn → prog A) : prog A :=
  match p with
  | Ret a => Ret a
  | Raise e => if isinstance_Exception e then h e else Raise e
  | Logger lvl msg k => Logger lvl msg (try_except k h)
  | PrintExc k => PrintExc (try_except k h)
  | GlobalLoad k => GlobalLoad (λ g, try_except (k g) h)
  | GlobalStore v k => GlobalStore v (try_except k h)
  | DatetimeNow k => DatetimeNow (λ t, try_except (k t) h)
  | AwaitGetTennisData a k => AwaitGetTennisData a (λ o, try_except (k o) h)
  | CallMerge x y k => CallMerge x y (λ o, try_except (k o) h)
  | AwaitSleep n k => AwaitSleep n (try_except k h)
  end.

(** The primitive statements. *)
Definition of_outcome {A : Type} (o : outcome A) : prog A :=
  match o with Returns a => Ret a | Raises e => Raise e end.

Definition logger_info (msg : string) : prog unit := Logger INFO msg (Ret tt).
Definition logger_error (msg : string) : prog unit := Logger ERROR msg (Ret tt).
Definition traceback_print_exc : prog unit := PrintExc (Ret tt).
Definition load_tennis_matches : prog (list entity) := GlobalLoad Ret.
Definition store_tennis_matches (v : list entity) : prog unit := GlobalStore v (Ret tt).
Definition datetime_now : prog datetime := DatetimeNow Ret.
Definition await_get_tennis_data (a : adapter) : prog (list entity) :=
  AwaitGetTennisData a of_outcome.
Definition merger_merge (bets_data rapid_data : list entity) : prog (list entity) :=
  CallMerge bets_data rapid_data of_outcome.
Definition asyncio_sleep (secs : Z) : prog unit := AwaitSleep secs (Ret tt).

(** ** The query surface *)

(** [len(x)] rendered inside an f-string. *)
Definition len_str {A : Type} (l : list A) : string := pretty (length l).

(** [GET /api/tennis].  The global is read twice: for the log line and for
    the response; the clock is read in between. *)
Definition get_tennis_matches : prog pyval :=
  tm ← load_tennis_matches;
  logger_info ("API request received. Current data length: " +:+ len_str tm);;
  now ← datetime_now;
  matches ← load_tennis_matches;
  mret (VDict (<["timestamp" := VStr (isoformat now)]>
              (<["matches" := VList (VDict <$> matches)]> ∅))).

(** The [for] loop of [get_match_details]: the first element whose
    ["match_id"] compares equal to the requested id. *)
Fixpoint find_match (match_id : string) (matches : list entity) : option entity :=
  match matches with
  | [] => None
  | m :: rest =>
      if eq_str (dict_get m "match_id") match_id then Some m
      else find_match match_id rest
  end.

(** The value of [{"error": msg}]. *)
Definition error_dict (msg : string) : pyval := VDict {["error" := VStr msg]}.

(** The value of [{"error": "Match not found"}, 404]. *)
Definition not_found : pyval := VTuple [error_dict "Match not found"; VInt 404].

(** [GET /api/tennis/match/{match_id}] *)
Definition get_match_details (match_id : string) : prog pyval :=
  try_except
    (tm ← load_tennis_matches;
     match find_match match_id tm with
     | Some m => mret (VDict m)
     | None => mret not_found
     end)
    (λ e,
     logger_error ("Error retrieving match details for " +:+ match_id +:+ ": " +:+ exn_str e);;
     mret (error_dict (exn_str e))).

(** ** The refresh loop *)

(** The two sleeps of [fetch_tennis_data], in seconds. *)
Definition cooldown : Z := 60.
Definition backoff : Z := 10.

(** The body of the [try] block: lines 90 to 116.  Constructing the two
    fetchers and the merger has no effect of its own here. *)
Definition cycle_body : prog unit :=
  logger_info "Starting data fetch cycle";;
  logger_info "Fetching data from BetsAPI...";;
  bets_data ← await_get_tennis_data BetsapiPrematch;
  logger_info ("Fetched " +:+ len_str bets_data +:+ " records from BetsAPI");;
  logger_info "Fetching data from RapidAPI...";;
  rapid_data ← await_get_tennis_data RapidInplayOddsFetcher;
  logger_info ("Fetched " +:+ len_str rapid_data +:+ " records from RapidAPI");;
  logger_info "Merging data from both APIs...";;
  merged_data ← merger_merge bets_data rapid_data;
  logger_info ("Merged data contains " +:+ len_str merged_data +:+ " matches");;
  store_tennis_matches merged_data;;
  logger_info "Fetch cycle complete. Waiting 60 seconds before next cycle.";;
  asyncio_sleep cooldown.

(** The [except Exception as e] block: lines 118 to 121. *)
Definition cycle_handler (e : exn) : prog unit :=
  logger_error ("Error in fetch cycle: " +:+ exn_str e);;
  traceback_print_exc;;
  asyncio_sleep backoff.

(** One iteration of [while True]. *)
Definition cycle : prog unit := try_except cycle_body cycle_handler.

(** ** Semantics *)

(** What the outside world answers during one cycle or one request: the
    result of each adapter's [get_tennis_data()], the result of
    [TennisMerger().merge] on any two record lists, and the wall clock. *)
Record world : Type := World {
  get_tennis_data : adapter → outcome (list entity);
  merge : list entity → list entity → outcome (list entity);
  clock : datetime
}.

(** What an execution leaves behind, in order.  Awaiting an adapter shows as
    two events: the call, and the resumption of the caller with its result. *)
Inductive event : Type :=
| EvLog (lvl : level) (msg : string)
| EvPrintExc
| EvStore (v : list entity)
| EvInvoke (a : adapter)
| EvResume (a : adapter) (o : outcome (list entity))
| EvMerge (bets_data rapid_data : list entity) (o : outcome (list entity))
| EvSleep (secs : Z).

(** Running a program to its end against a world [σ], from the value [g] of
    the global: the outcome, the final value of the global, the events. *)
Fixpoint exec {A : Type} (σ : world) (p : prog A) (g : list entity)
  : outcome A * list entity * list event :=
  match p with
  | Ret a => (Returns a, g, [])
  | Raise e => (Raises e, g, [])
  | Logger lvl msg k =>
      let '(o, g', tr) := exec σ k g in (o, g', EvLog lvl msg :: tr)
  | PrintExc k =>
      let '(o, g', tr) := exec σ k g in (o, g', EvPrintExc :: tr)
  | GlobalLoad k => exec σ (k g) g
  | GlobalStore v k =>
      let '(o, g', tr) := exec σ k v in (o, g', EvStore v :: tr)
  | DatetimeNow k => exec σ (k (clock σ)) g
  | AwaitGetTennisData a k =>
      let r := get_tennis_data σ a in
      let '(o, g', tr) := exec σ (k r) g in
      (o, g', EvInvoke a :: EvResume a r :: tr)
  | CallMerge x y k =>
      let r := merge σ x y in
      let '(o, g', tr) := exec σ (k r) g in (o, g', EvMerge x y r :: tr)
  | AwaitSleep n k =>
      let '(o, g', tr) := exec σ k g in (o, g', EvSleep n :: tr)
  end.

(** The same semantics one primitive at a time: the rest of the program, the
    global and the events of that step; [None] for a finished program. *)
Definition step {A : Type} (σ : world) (p : prog A) (g : list entity)
  : option (prog A * list entity * list event) :=
  match p with
  | Ret _ | Raise _ => None
  | Logger lvl msg k => Some (k, g, [EvLog lvl msg])
  | PrintExc k => Some (k, g, [EvPrintExc])
  | GlobalLoad k => Some (k g, g, [])
  | GlobalStore v k => Some (k, v, [EvStore v])
  | DatetimeNow k => Some (k (clock σ), g, [])
  | AwaitGetTennisData a k =>
      let r := get_tennis_data σ a in Some (k r, g, [EvInvoke a; EvResume a r])
  | CallMerge x y k => let r := merge σ x y in Some (k r, g, [EvMerge x y r])
  | AwaitSleep n k => Some (k, g, [EvSleep n])
  end.

(** [fetch_tennis_data]: where the coroutine stands.  [Running k] is inside
    an iteration with [k] left to do; [Exited e] is after an exception left
    the [while True] loop, which ends the coroutine and its thread. *)
Inductive loop_state : Type :=
| Running (k : prog unit)
| Exited (e : exn).

(** The process: the module global, the refresh coroutine, and the number of
    the iteration it is in. *)
Record process : Type := Process {
  tennis_matches : list entity;
  refresher : loop_state;
  iteration : nat
}.

(** Line 29 and the first entry into [while True]. *)
Definition initial : process :=
  {| tennis_matches := []; refresher := Running cycle; iteration := 0 |}.

(** One step of the refresh coroutine; [Σ n] is the world during iteration
    [n].  A finished iteration goes round the loop, an exception that the
    [try] did not handle leaves it, and there is no step past that. *)
Definition loop_step (Σ : nat → world) (w : process) : process * list event :=
  match refresher w with
  | Exited _ => (w, [])
  | Running (Raise e) =>
      ({| tennis_matches := tennis_matches w; refresher := Exited e;
          iteration := iteration w |}, [])
  | Running (Ret _) =>
      ({| tennis_matches := tennis_matches w; refresher := Running cycle;
          iteration := S (iteration w) |}, [])
  | Running k =>
      match step (Σ (iteration w)) k (tennis_matches w) with
      | Some (k', g', evs) =>
          ({| tennis_matches := g'; refresher := Running k';
              iteration := iteration w |}, evs)
      | None => (w, [])
      end
  end.

(** [n] steps of the refresh coroutine, with the events they emit. *)
Fixpoint loop_steps (Σ : nat → world) (n : nat) (w : process) : process * list event :=
  match n with
  | O => (w, [])
  | S n' =>
      let '(w1, evs) := loop_step Σ w in
      let '(w2, tr) := loop_steps Σ n' w1 in
      (w2, evs ++ tr)
  end.

(** [fetch_tennis_data()] as started by [run_fetch_loop], observed for [n]
    steps from the start of the process. *)
Definition fetch_tennis_data (Σ : nat → world) (n : nat) : process * list event :=
  loop_steps Σ n initial.

(** ** Observations on event traces *)

#[global] Instance adapter_eq_dec : EqDecision adapter.
Proof. solve_decision. Defined.

(** The values the global was rebound to, in order. *)
Definition stores (tr : list event) : list (list entity) :=
  omap (λ ev, match ev with EvStore v => Some v | _ => None end) tr.

(** The durations slept, in order. *)
Definition sleeps (tr : list event) : list Z :=
  omap (λ ev, match ev with EvSleep n => Some n | _ => None end) tr.

(** The events that cross the module boundary: adapter calls, their
    resumptions, and merger calls. *)
Definition calls (tr : list event) : list event :=
  omap (λ ev, match ev with
              | EvInvoke _ | EvResume _ _ | EvMerge _ _ _ => Some ev
              | _ => None
              end) tr.

(** Two fetches run concurrently in a trace when one adapter is invoked
    while a call to another has not been resumed yet; [pending] lists the
    adapters awaited so far and not resumed. *)
Fixpoint overlap_from (pending : list adapter) (tr : list event) : bool :=
  match tr with
  | [] => false
  | EvInvoke a :: tr' =>
      negb (bool_decide (pending = [])) || overlap_from (a :: pending) tr'
  | EvResume a _ :: tr' =>
      overlap_from (List.filter (λ b, negb (bool_decide (b = a))) pending) tr'
  | _ :: tr' => overlap_from pending tr'
  end.

Definition fetches_overlap (tr : list event) : bool := overlap_from [] tr.

(** The number of primitive steps [p] takes from the global [g]. *)
Fixpoint steps_left {A : Type} (σ : world) (p : prog A) (g : list entity) : nat :=
  match p with
  | Ret _ | Raise _ => 0
  | Logger _ _ k | PrintExc k | AwaitSleep _ k => S (steps_left σ k g)
  | GlobalLoad k => S (steps_left σ (k g) g)
  | GlobalStore v k => S (steps_left σ k v)
  | DatetimeNow k => S (steps_left σ (k (clock σ)) g)
  | AwaitGetTennisData a k => S (steps_left σ (k (get_tennis_data σ a)) g)
  | CallMerge x y k => S (steps_left σ (k (merge σ x y)) g)
  end.

(** ** Requests served while the refresh coroutine runs *)

(** The two queries and the handler that answers each. *)
Inductive request : Type :=
| AllMatches
| MatchById (match_id : string).

Definition handler (q : request) : prog pyval :=
  match q with
  | AllMatches => get_tennis_matches
  | MatchById match_id => get_match_details match_id
  end.

(** The response a query gets when it reads the snapshot [g] at the
    clock reading [t]. *)
Definition answer (q : request) (t : datetime) (g : list entity) : pyval :=
  match q with
  | AllMatches =>
      VDict (<["timestamp" := VStr (isoformat t)]>
             (<["matches" := VList (VDict <$> g)]> ∅))
  | MatchById match_id =>
      match find_match match_id g with
      | Some m => VDict m
      | None => not_found
      end
  end.

(** The refresh coroutine runs in a thread of its own, so its steps and the
    steps of a handler interleave freely.  A schedule says whose turn it is. *)
Inductive turn : Type := Refresher | Handler.

(** One turn of the system made of the process and one request in flight
    ([k] is what is left of its handler, [ρ] the world it runs in). *)
Definition system_step (Σ : nat → world) (ρ : world) (t : turn)
    (s : process * prog pyval) : process * prog pyval :=
  match t with
  | Refresher => ((loop_step Σ s.1).1, s.2)
  | Handler =>
      match step ρ s.2 (tennis_matches s.1) with
      | Some (k, g, _) =>
          ({| tennis_matches := g; refresher := refresher s.1;
              iteration := iteration s.1 |}, k)
      | None => s
      end
  end.

Definition system_run (Σ : nat → world) (ρ : world) (sched : list turn)
    (s : process * prog pyval) : process * prog pyval :=
  foldl (λ s t, system_step Σ ρ t s) s sched.

(** ** Conditions on a world *)

(** Every exception the adapters and the merger raise is an [Exception]. *)
Definition errors_only (σ : world) : Prop :=
  (∀ a e, get_tennis_data σ a = Raises e → isinstance_Exception e = true) ∧
  (∀ x y e, merge σ x y = Raises e → isinstance_Exception e = true).

(** Exactly one adapter fails (raises an [Exception]) and the other one
    returns its records. *)
Definition partial_failure (σ : world) : Prop :=
  (∃ e rapid_data,
     get_tennis_data σ BetsapiPrematch = Raises e ∧
     isinstance_Exception e = true ∧
     get_tennis_data σ RapidInplayOddsFetcher = Returns rapid_data) ∨
  (∃ bets_data e,
     get_tennis_data σ BetsapiPrematch = Returns bets_data ∧
     get_tennis_data σ RapidInplayOddsFetcher = Raises e ∧
     isinstance_Exception e = true).

(** Both adapters fail, or both return and the merger raises. *)
Definition total_failure (σ : world) : Prop :=
  (∃ e1 e2,
     get_tennis_data σ BetsapiPrematch = Raises e1 ∧
     isinstance_Exception e1 = true ∧
     get_tennis_data σ RapidInplayOddsFetcher = Raises e2 ∧
     isinstance_Exception e2 = true) ∨
  (∃ bets_data rapid_data e,
     get_tennis_data σ BetsapiPrematch = Returns bets_data ∧
     get_tennis_data σ RapidInplayOddsFetcher = Returns rapid_data ∧
     merge σ bets_data rapid_data = Raises e ∧
     isinstance_Exception e = true).

(** ** Invariants *)

(** The coroutine is inside an iteration whose remaining part ends normally. *)
Definition on_course (Σ : nat → world) (w : process) : Prop :=
  ∃ k g' tr,
    refresher w = Running k ∧
    exec (Σ (iteration w)) k (tennis_matches w) = (Returns tt, g', tr).

(** ** Sample data *)

Module Samples.

(** A match entity with an id and a status. *)
Definition a_match (match_id status : string) : entity :=
  <["match_id" := VStr match_id]> (<["status" := VStr status]> ∅).

Definition bets_records : list entity := [a_match "b1" "prematch"].
Definition rapid_records : list entity :=
  [a_match "r1" "live"; a_match "r2" "live"; a_match "r3" "live"].

Definition source_unavailable : exn :=
  Exn (ExceptionSubclass "SourceUnavailable") "provider unreachable".
Definition merge_error : exn :=
  Exn (ExceptionSubclass "KeyError") "'start_time'".
Definition system_exit : exn := Exn SystemExit "1".

(** A merger stand-in that passes every record through. *)
Definition concat_merge (x y : list entity) : outcome (list entity) := Returns (x ++ y).

Definition noon : datetime := Datetime 2024 1 1 12 0 0 0.
Definition half_past_noon : datetime := Datetime 2024 1 1 12 30 0 0.

(** Both providers answer. *)
Definition healthy : world :=
  {| get_tennis_data := λ a, match a with
                             | BetsapiPrematch => Returns bets_records
                             | RapidInplayOddsFetcher => Returns rapid_records
                             end;
     merge := concat_merge; clock := noon |}.

(** The same world half an hour later. *)
Definition healthy_later : world :=
  {| get_tennis_data := get_tennis_data healthy; merge := concat_merge;
     clock := half_past_noon |}.

(** BetsAPI is down, RapidAPI answers with three records. *)
Definition bets_down : world :=
  {| get_tennis_data := λ a, match a with
                             | BetsapiPrematch => Raises source_unavailable
                             | RapidInplayOddsFetcher => Returns rapid_records
                             end;
     merge := concat_merge; clock := noon |}.

(** Both providers are down. *)
Definition both_down : world :=
  {| get_tennis_data := λ _, Raises source_unavailable;
     merge := concat_merge; clock := noon |}.

(** Both providers answer and the merger raises. *)
Definition merge_fails : world :=
  {| get_tennis_data := get_tennis_data healthy;
     merge := λ _ _, Raises merge_error; clock := noon |}.

(** The BetsAPI adapter calls [sys.exit(1)]. *)
Definition bets_exits : world :=
  {| get_tennis_data := λ a, match a with
                             | BetsapiPrematch => Raises system_exit
                             | RapidInplayOddsFetcher => Returns rapid_records
                             end;
     merge := concat_merge; clock := noon |}.

(** The same world in every iteration. *)
Definition always (σ : world) : nat → world := λ _, σ.

(** Both providers answer in the first iteration and are down ever after. *)
Definition healthy_once : nat → world :=
  λ i, match i with O => healthy | S _ => both_down end.

(** A snapshot that holds the id ["7"] twice. *)
Definition with_duplicate : list entity :=
  [a_match "3" "live"; a_match "7" "first"; a_match "7" "second"].

End Samples.

(** ** Further observations *)

(** The messages logged at [ERROR] level, in order. *)
Definition error_logs (tr : list event) : list string :=
  omap (λ ev, match ev with EvLog ERROR msg => Some msg | _ => None end) tr.

(** How many times [traceback.print_exc()] ran. *)
Definition tracebacks (tr : list event) : nat :=
  length (omap (λ ev, match ev with EvPrintExc => Some tt | _ => None end) tr).

(** What reaches line 112 in a world: the merger's result, when both
    fetches and the merge have returned. *)
Definition published_by (σ : world) : option (list entity) :=
  match get_tennis_data σ BetsapiPrematch with
  | Returns bets_data =>
      match get_tennis_data σ RapidInplayOddsFetcher with
      | Returns rapid_data =>
          match merge σ bets_data rapid_data with
          | Returns merged_data => Some merged_data
          | Raises _ => None
          end
      | Raises _ => None
      end
  | Raises _ => None
  end.

(** The first exception of an iteration, in the order of the calls: the
    BetsAPI fetch (line 98), the RapidAPI fetch (line 102), the merge
    (line 108). *)
Definition first_failure (σ : world) : option exn :=
  match get_tennis_data σ BetsapiPrematch with
  | Raises e => Some e
  | Returns bets_data =>
      match get_tennis_data σ RapidInplayOddsFetcher with
      | Raises e => Some e
      | Returns rapid_data =>
          match merge σ bets_data rapid_data with
          | Raises e => Some e
          | Returns _ => None
          end
      end
  end.

(** The result of the latest iteration before [i] that published, or the
    initial empty list when none did. *)
Fixpoint latest_snapshot (Σ : nat → world) (i : nat) : list entity :=
  match i with
  | O => []
  | S j => default (latest_snapshot Σ j) (published_by (Σ j))
  end.

(** Does the entity carry a string under ["match_id"]? *)
Definition has_string_id (m : entity) : bool :=
  match dict_get m "match_id" with
  | VStr _ => true
  | _ => false
  end.

(** ** The React front end *)

Module React.

(** What a route of the front end comes back with: a returned
    [FileResponse(path)], or a raised [HTTPException(status_code, detail)]. *)
Inductive result : Type :=
| FileResponse (path : string)
| RaiseHTTPException (status_code : Z) (detail : string).

(** [serve_react_app()], lines 70 to 72; [index_html] is the value of
    [os.path.join(react_build_dir, "index.html")]. *)
Definition serve_react_app (index_html : string) : result :=
  FileResponse index_html.

(** [serve_react_routes(full_path)], lines 75 to 82;
    [full_path.startswith("api/")] is [String.prefix "api/" full_path]. *)
Definition serve_react_routes (index_html full_path : string) : result :=
  if String.prefix "api/" full_path
  then RaiseHTTPException 404 "API endpoint not found"
  else FileResponse index_html.

End React.

(** ** Handlers that never wait *)

(** A handler that returns after at most [n] steps of its own, whatever it
    finds in the global and on the clock: it only logs, reads the clock and
    loads the global on the way. *)
Inductive returns_within : nat → prog pyval → Prop :=
| within_ret (n : nat) (r : pyval) : returns_within n (Ret r)
| within_logger (n : nat) (lvl : level) (msg : string) (k : prog pyval) :
    returns_within n k → returns_within (S n) (Logger lvl msg k)
| within_now (n : nat) (k : datetime → prog pyval) :
    (∀ t, returns_within n (k t)) → returns_within (S n) (DatetimeNow k)
| within_load (n : nat) (k : list entity → prog pyval) :
    (∀ g, returns_within n (k g)) → returns_within (S n) (GlobalLoad k).

(** The number of turns a schedule gives to the handler. *)
Definition handler_turns (sched : list turn) : nat :=
  length (List.filter (λ t, match t with Handler => true | Refresher => false end) sched).

(** ** The previous and the new snapshot *)

(** The global holds the previous snapshot or the new one.  In iteration
    [i] the previous snapshot is what the latest publishing iteration before
    [i] stored (the initial empty list if there was none); the new one is
    the whole list the merger returned in iteration [i] itself. *)
Definition previous_or_new (Σ : nat → world) (w : process) : Prop :=
  tennis_matches w = latest_snapshot Σ (iteration w) ∨
  published_by (Σ (iteration w)) = Some (tennis_matches w).

(** What an iteration in world [σ] has to store: the merger's result, once,
    if it gets that far. *)
Definition to_store (σ : world) : list (list entity) :=
  match published_by σ with
  | Some merged_data => [merged_data]
  | None => []
  end.

(** Where the coroutine stands with respect to line 112: before it, with
    the previous snapshot in the global and the rest of the iteration still
    to store what the iteration has to store; or after it, with the new
    snapshot in the global and nothing more to store. *)
Definition in_phase (Σ : nat → world) (w : process) : Prop :=
  match refresher w with
  | Running k =>
      (tennis_matches w = latest_snapshot Σ (iteration w) ∧
       stores (exec (Σ (iteration w)) k (tennis_matches w)).2 = to_store (Σ (iteration w))) ∨
      (published_by (Σ (iteration w)) = Some (tennis_matches w) ∧
       stores (exec (Σ (iteration w)) k (tennis_matches w)).2 = [])
  | Exited _ => previous_or_new Σ w
  end.

(** The number of handler turns that come before the turn on which the
    handler loads the global for its response: [get_tennis_matches] loads
    for the log line, logs and reads the clock first (lines 45 and 47);
    [get_match_details] loads at once (line 55). *)
Definition reading_turn (q : request) : nat :=
  match q with
  | AllMatches => 3
  | MatchById _ => 0
  end.

(** A handler state [k] that is [n] steps of its own away from the reading
    turn: none of those steps touches the global, and the step after them
    loads the global and returns the query's answer on what it loaded. *)
Fixpoint reads_after (ρ : world) (q : request) (n : nat) (k : prog pyval) : Prop :=
  match n with
  | O => ∀ g, ∃ evs, step ρ k g = Some (Ret (answer q (clock ρ) g), g, evs)
  | S n' => ∀ g, ∃ k' evs, step ρ k g = Some (k', g, evs) ∧ reads_after ρ q n' k'
  end.

(** * Properties *)

(** ** Executor and step machine *)

Section Semantics.
Context {A : Type} (σ : world).

(** [exec] is one [step] followed by [exec] of what is left. *)
Lemma exec_step (p k : prog A) (g g1 : list entity) (evs : list event) :
  step σ p g = Some (k, g1, evs) →
  exec σ p g = (let '(o, g2, tr) := exec σ k g1 in (o, g2, evs ++ tr)).
Proof.
  destruct p; simpl; intros H; inversion H; subst; clear H;
    match goal with |- context [exec σ ?k ?h] => destruct (exec σ k h) as [[? ?] ?] end;
    reflexivity.
Qed.

(** A step either leaves the global alone or rebinds it, and then says so. *)
Lemma step_stores (p k : prog A) (g g1 : list entity) (evs : list event) :
  step σ p g = Some (k, g1, evs) →
  (g1 = g ∧ stores evs = []) ∨ stores evs = [g1].
Proof.
  destruct p; simpl; intros H; inversion H; subst; clear H; auto.
Qed.

End Semantics.

Lemma stores_app (tr1 tr2 : list event) : stores (tr1 ++ tr2) = stores tr1 ++ stores tr2.
Proof. apply omap_app. Qed.

(** ** The refresh coroutine, step by step *)

Section Loop.
Context (Σ : nat → world).

Lemma loop_steps_S (n : nat) (w : process) :
  loop_steps Σ (S n) w =
  (let '(w1, evs) := loop_step Σ w in
   let '(w2, tr) := loop_steps Σ n w1 in (w2, evs ++ tr)).
Proof. reflexivity. Qed.

Lemma loop_steps_add (a b : nat) (w : process) :
  loop_steps Σ (a + b) w =
  (let '(w1, t1) := loop_steps Σ a w in
   let '(w2, t2) := loop_steps Σ b w1 in (w2, t1 ++ t2)).
Proof.
  revert w. induction a as [|a IH]; intros w.
  - simpl. destruct (loop_steps Σ b w); reflexivity.
  - change (S a + b) with (S (a + b)). rewrite !loop_steps_S.
    destruct (loop_step Σ w) as [w1 evs]. rewrite IH.
    destruct (loop_steps Σ a w1) as [w2 t1].
    destruct (loop_steps Σ b w2) as [w3 t2].
    rewrite app_assoc. reflexivity.
Qed.

(** The machine takes the steps of [exec]: from inside an iteration with [k]
    left to do, [steps_left] steps later the global and the events are those
    of [exec], and the coroutine stands at the end of the iteration, or at
    the exception that escaped it. *)
Lemma loop_steps_exec (k : prog unit) (g : list entity) (i : nat) :
  loop_steps Σ (steps_left (Σ i) k g) (Process g (Running k) i) =
  (let '(o, g', tr) := exec (Σ i) k g in (Process g' (Running (of_outcome o)) i, tr)).
Proof.
  revert g.
  induction k as [a|e|lvl msg k IH|k IH|k IH|v k IH|k IH|a k IH|x y k IH|n k IH];
    intros g; simpl steps_left; simpl exec;
    try (rewrite loop_steps_S; unfold loop_step; simpl; rewrite IH;
         match goal with |- context [exec ?s ?q ?h] => destruct (exec s q h) as [[? ?] ?] end;
         reflexivity);
    reflexivity.
Qed.

(** One iteration that ends normally: the coroutine is back at the top of
    the loop, in the next iteration. *)
Lemma loop_steps_cycle (g g' : list entity) (tr : list event) (i : nat) :
  exec (Σ i) cycle g = (Returns tt, g', tr) →
  loop_steps Σ (S (steps_left (Σ i) cycle g)) (Process g (Running cycle) i) =
  (Process g' (Running cycle) (S i), tr).
Proof.
  intros H. replace (S (steps_left (Σ i) cycle g)) with (steps_left (Σ i) cycle g + 1) by lia.
  rewrite loop_steps_add, loop_steps_exec, H. simpl. rewrite app_nil_r. reflexivity.
Qed.

(** One iteration that an exception leaves: the coroutine has exited. *)
Lemma loop_steps_escape (g g' : list entity) (tr : list event) (e : exn) (i : nat) :
  exec (Σ i) cycle g = (Raises e, g', tr) →
  loop_steps Σ (S (steps_left (Σ i) cycle g)) (Process g (Running cycle) i) =
  (Process g' (Exited e) i, tr).
Proof.
  intros H. replace (S (steps_left (Σ i) cycle g)) with (steps_left (Σ i) cycle g + 1) by lia.
  rewrite loop_steps_add, loop_steps_exec, H. simpl. rewrite app_nil_r. reflexivity.
Qed.

(** A step of the coroutine either leaves the global alone or rebinds it,
    and then says so. *)
Lemma loop_step_stores (w : process) :
  (tennis_matches (loop_step Σ w).1 = tennis_matches w ∧ stores (loop_step Σ w).2 = []) ∨
  stores (loop_step Σ w).2 = [tennis_matches (loop_step Σ w).1].
Proof.
  destruct w as [g [k|e] i]; unfold loop_step; simpl; [|auto].
  destruct k; simpl; auto.
Qed.

(** Without a store event the global is what it was. *)
Lemma loop_steps_no_store (n : nat) (w : process) :
  stores (loop_steps Σ n w).2 = [] →
  tennis_matches (loop_steps Σ n w).1 = tennis_matches w.
Proof.
  revert w. induction n as [|n IH]; intros w; [reflexivity|].
  rewrite loop_steps_S.
  pose proof (loop_step_stores w) as Hs.
  destruct (loop_step Σ w) as [w1 evs]; simpl in Hs.
  specialize (IH w1). destruct (loop_steps Σ n w1) as [w2 tr]; simpl in *.
  rewrite stores_app. intros Happ. apply app_eq_nil in Happ as [H1 H2].
  rewrite IH by exact H2.
  destruct Hs as [[Hs _]|Hs]; [exact Hs|congruence].
Qed.

End Loop.

(** ** One iteration *)

(** Unfolds the iteration as far as the known outcomes allow. *)
Ltac run_cycle :=
  cbn; repeat match goal with
              | H : _ = _ |- _ => rewrite H; cbn
              end.

(** When the adapters and the merger raise nothing but [Exception]s, the
    iteration ends normally from any global. *)
Lemma cycle_completes (σ : world) (g : list entity) :
  errors_only σ → ∃ g' tr, exec σ cycle g = (Returns tt, g', tr).
Proof.
  intros [Hget Hmerge].
  destruct (get_tennis_data σ BetsapiPrematch) as [bets_data|e1] eqn:H1.
  - destruct (get_tennis_data σ RapidInplayOddsFetcher) as [rapid_data|e2] eqn:H2.
    + destruct (merge σ bets_data rapid_data) as [merged_data|e3] eqn:H3.
      * do 2 eexists. run_cycle. reflexivity.
      * pose proof (Hmerge _ _ _ H3). do 2 eexists. run_cycle. reflexivity.
    + pose proof (Hget _ _ H2). do 2 eexists. run_cycle. reflexivity.
  - pose proof (Hget _ _ H1). do 2 eexists. run_cycle. reflexivity.
Qed.

(** With both providers answering, the iteration publishes the merged list
    in one store and sleeps the cooldown. *)
Example healthy_cycle_publishes :
  let r := exec Samples.healthy cycle [] in
  r.1 = (Returns tt, Samples.bets_records ++ Samples.rapid_records) ∧
  stores r.2 = [Samples.bets_records ++ Samples.rapid_records] ∧
  sleeps r.2 = [cooldown].
Proof. repeat split; reflexivity. Qed.

(** ** Invariants of the refresh coroutine *)

Section LoopInvariants.
Context (Σ : nat → world).

(** Where a coroutine inside an iteration can stand. *)
Lemma running_cases (σ : world) (k : prog unit) (g : list entity) :
  k = Ret tt ∨ (∃ e, k = Raise e) ∨ (∃ k' g1 evs, step σ k g = Some (k', g1, evs)).
Proof.
  destruct k as [[]|e| | | | | | | |]; simpl; eauto 10.
Qed.

Lemma loop_step_running (k k' : prog unit) (g g1 : list entity) (evs : list event) (i : nat) :
  step (Σ i) k g = Some (k', g1, evs) →
  loop_step Σ (Process g (Running k) i) = (Process g1 (Running k') i, evs).
Proof.
  intros H. unfold loop_step. simpl.
  destruct k; simpl in *; try discriminate H; inversion H; subst; reflexivity.
Qed.

Lemma on_course_step (w : process) :
  (∀ i, errors_only (Σ i)) → on_course Σ w → on_course Σ (loop_step Σ w).1.
Proof.
  intros HΣ (k & g' & tr & Hk & Hex).
  destruct w as [g r i]; simpl in *; subst r.
  destruct (running_cases (Σ i) k g) as [->|[[e ->]|(k' & g1 & evs & Hs)]].
  - destruct (cycle_completes (Σ (S i)) g (HΣ (S i))) as (g2 & tr2 & E).
    exists cycle, g2, tr2. split; [reflexivity|exact E].
  - discriminate Hex.
  - rewrite (loop_step_running _ _ _ _ _ _ Hs). simpl.
    rewrite (exec_step _ _ _ _ _ _ Hs) in Hex.
    destruct (exec (Σ i) k' g1) as [[o g2] tr2] eqn:E. inversion Hex; subst.
    exists k', g', tr2. split; [reflexivity|exact E].
Qed.

Lemma on_course_initial : (∀ i, errors_only (Σ i)) → on_course Σ initial.
Proof.
  intros HΣ. destruct (cycle_completes (Σ 0) [] (HΣ 0)) as (g1 & tr1 & E).
  exists cycle, g1, tr1. split; [reflexivity|exact E].
Qed.

Lemma loop_steps_invariant (I : process → Prop) (n : nat) (w : process) :
  (∀ w, I w → I (loop_step Σ w).1) → I w → I (loop_steps Σ n w).1.
Proof.
  intros Hstep. revert w. induction n as [|n IH]; intros w Hw; [exact Hw|].
  rewrite loop_steps_S. specialize (Hstep w Hw).
  destruct (loop_step Σ w) as [w1 evs]. specialize (IH w1 Hstep).
  destruct (loop_steps Σ n w1) as [w2 tr]. exact IH.
Qed.

(** Every iteration is reached, at the top of the loop. *)
Lemma loop_reaches_iteration (i : nat) :
  (∀ i, errors_only (Σ i)) →
  ∃ n g, (loop_steps Σ n initial).1 = Process g (Running cycle) i.
Proof.
  intros HΣ. induction i as [|i (n & g & IH)].
  - exists 0, []. reflexivity.
  - destruct (cycle_completes (Σ i) g (HΣ i)) as (g1 & tr1 & E).
    exists (n + S (steps_left (Σ i) cycle g)), g1.
    rewrite loop_steps_add. destruct (loop_steps Σ n initial) as [w1 t1].
    simpl in IH. subst w1. rewrite (loop_steps_cycle Σ _ _ _ _ E). reflexivity.
Qed.

End LoopInvariants.

(** ** The handlers *)

Lemma eq_str_spec (v : pyval) (s : string) : eq_str v s = true ↔ v = VStr s.
Proof.
  destruct v; simpl; try (split; [discriminate|intros H; discriminate H]).
  rewrite bool_decide_eq_true. split; [intros ->; reflexivity|intros H; inversion H; reflexivity].
Qed.

(** An entity compares equal to the requested id exactly when its
    ["match_id"] field holds that string. *)
Lemma match_id_test (m : entity) (match_id : string) :
  eq_str (dict_get m "match_id") match_id = true ↔ m !! "match_id" = Some (VStr match_id).
Proof.
  rewrite eq_str_spec. unfold dict_get.
  destruct (m !! "match_id") as [v|]; simpl.
  - split; [intros ->; reflexivity|intros H; inversion H; reflexivity].
  - split; intros H; discriminate H.
Qed.

(** What the scan finds: the first entity with the id, if there is one. *)
Lemma find_match_Some (match_id : string) (g : list entity) (m : entity) :
  find_match match_id g = Some m ↔
  ∃ before after,
    g = before ++ m :: after ∧
    m !! "match_id" = Some (VStr match_id) ∧
    ∀ m', m' ∈ before → m' !! "match_id" ≠ Some (VStr match_id).
Proof.
  split.
  - revert m. induction g as [|x g IH]; intros m H; simpl in H; [discriminate H|].
    destruct (eq_str (dict_get x "match_id") match_id) eqn:E.
    + inversion H; subst. exists [], g. split; [reflexivity|]. split.
      * apply match_id_test, E.
      * intros m' Hin. inversion Hin.
    + destruct (IH m H) as (before & after & -> & Hm & Hb).
      exists (x :: before), after. split; [reflexivity|]. split; [exact Hm|].
      intros m' Hin. apply elem_of_cons in Hin as [->|Hin]; [|apply Hb, Hin].
      intros Hx. apply match_id_test in Hx. congruence.
  - intros (before & after & -> & Hm & Hb).
    induction before as [|x before IH]; simpl.
    + apply match_id_test in Hm. rewrite Hm. reflexivity.
    + destruct (eq_str (dict_get x "match_id") match_id) eqn:E.
      * apply match_id_test in E. exfalso. apply (Hb x); [left|exact E].
      * apply IH. intros m' Hin. apply Hb. right. exact Hin.
Qed.

Lemma find_match_None (match_id : string) (g : list entity) :
  find_match match_id g = None ↔
  ∀ m, m ∈ g → m !! "match_id" ≠ Some (VStr match_id).
Proof.
  induction g as [|x g IH]; simpl.
  - split; [intros _ m Hin; inversion Hin|reflexivity].
  - destruct (eq_str (dict_get x "match_id") match_id) eqn:E.
    + split; [discriminate|]. intros H. exfalso. apply (H x); [left|].
      apply match_id_test, E.
    + rewrite IH. split.
      * intros H m Hin. apply elem_of_cons in Hin as [->|Hin]; [|apply H, Hin].
        intros Hx. apply match_id_test in Hx. congruence.
      * intros H m Hin. apply H. right. exact Hin.
Qed.

(** [isoformat] pads every field and shows the microseconds only when
    there are some. *)
Example isoformat_examples :
  isoformat (Datetime 2024 3 9 7 5 0 0) = "2024-03-09T07:05:00" ∧
  isoformat (Datetime 2024 3 9 7 5 0 1250) = "2024-03-09T07:05:00.001250".
Proof. split; vm_compute; reflexivity. Qed.

(** Run without interruption, a handler answers from the global as it is,
    and leaves it as it is. *)
Lemma exec_get_tennis_matches (σ : world) (g : list entity) :
  exec σ get_tennis_matches g =
  (Returns (answer AllMatches (clock σ) g), g,
   [EvLog INFO ("API request received. Current data length: " +:+ len_str g)]).
Proof. reflexivity. Qed.

Lemma exec_get_match_details (σ : world) (match_id : string) (g : list entity) :
  exec σ (get_match_details match_id) g = (Returns (answer (MatchById match_id) (clock σ) g), g, []).
Proof.
  unfold get_match_details, answer. cbn.
  destruct (find_match match_id g); reflexivity.
Qed.

(** * The claims *)

(** ** C1: one adapter fails, the other succeeds *)

(** C1, as the code has it: when exactly one adapter fails in iteration [i]
    and the other one succeeds, the iteration ends without an exception
    escaping, but nothing is merged and nothing is published: the global
    keeps its value, the loop sleeps the backoff delay and goes on to
    iteration [i + 1].  When it is the first adapter (BetsAPI) that fails,
    the second one is not even invoked. *)
Theorem partial_failure_abandons_cycle (Σ : nat → world) (i : nat) (g : list entity) :
  partial_failure (Σ i) →
  ∃ tr, exec (Σ i) cycle g = (Returns tt, g, tr) ∧
        stores tr = [] ∧
        sleeps tr = [backoff] ∧
        (∀ x y o, EvMerge x y o ∉ tr) ∧
        (∀ e, get_tennis_data (Σ i) BetsapiPrematch = Raises e →
              EvInvoke RapidInplayOddsFetcher ∉ tr) ∧
        loop_steps Σ (S (steps_left (Σ i) cycle g)) (Process g (Running cycle) i) =
          (Process g (Running cycle) (S i), tr).
Proof.
  intros H.
  assert (∃ tr, exec (Σ i) cycle g = (Returns tt, g, tr) ∧
                stores tr = [] ∧ sleeps tr = [backoff] ∧
                (∀ x y o, EvMerge x y o ∉ tr) ∧
                (∀ e, get_tennis_data (Σ i) BetsapiPrematch = Raises e →
                      EvInvoke RapidInplayOddsFetcher ∉ tr)) as (tr & E & Hrest).
  { destruct H as [(e & rapid_data & H1 & I & H2)|(bets_data & e & H1 & H2 & I)].
    - eexists. run_cycle. split; [reflexivity|]. repeat split.
      + intros x y o Hin.
        repeat (apply elem_of_cons in Hin as [Hin|Hin]; [discriminate Hin|]).
        inversion Hin.
      + intros e' _ Hin.
        repeat (apply elem_of_cons in Hin as [Hin|Hin]; [discriminate Hin|]).
        inversion Hin.
    - eexists. run_cycle. split; [reflexivity|]. repeat split.
      + intros x y o Hin.
        repeat (apply elem_of_cons in Hin as [Hin|Hin]; [discriminate Hin|]).
        inversion Hin.
      + intros e' He'. discriminate He'. }
  exists tr. split; [exact E|].
  destruct Hrest as (H1 & H2 & H3 & H4). repeat split; try assumption.
  apply loop_steps_cycle, E.
Qed.

Lemma bets_down_is_partial_failure (i : nat) :
  partial_failure (Samples.always Samples.bets_down i).
Proof.
  left. exists Samples.source_unavailable, Samples.rapid_records.
  repeat split; reflexivity.
Qed.

(** C1, witness: BetsAPI down, RapidAPI answering, in the third iteration
    of a process that has a snapshot published. *)
Lemma partial_failure_abandons_cycle_witness :
  partial_failure (Samples.always Samples.bets_down 2) ∧
  ∃ tr, exec (Samples.always Samples.bets_down 2) cycle Samples.bets_records =
          (Returns tt, Samples.bets_records, tr) ∧
        stores tr = [] ∧
        sleeps tr = [backoff] ∧
        (∀ x y o, EvMerge x y o ∉ tr) ∧
        (∀ e, get_tennis_data (Samples.always Samples.bets_down 2) BetsapiPrematch = Raises e →
              EvInvoke RapidInplayOddsFetcher ∉ tr) ∧
        loop_steps (Samples.always Samples.bets_down)
          (S (steps_left (Samples.always Samples.bets_down 2) cycle Samples.bets_records))
          (Process Samples.bets_records (Running cycle) 2) =
          (Process Samples.bets_records (Running cycle) 3, tr).
Proof.
  split; [exact (bets_down_is_partial_failure 2)|].
  apply (partial_failure_abandons_cycle (Samples.always Samples.bets_down) 2 Samples.bets_records).
  exact (bets_down_is_partial_failure 2).
Defined.

(** C1, counterexample: BetsAPI fails with [SourceUnavailable], RapidAPI
    returns three records, and the merger would make three entities of
    them; the iteration publishes nothing and the global stays empty. *)
Lemma partial_failure_publishes_nothing :
  partial_failure Samples.bets_down ∧
  merge Samples.bets_down [] Samples.rapid_records = Returns Samples.rapid_records ∧
  length Samples.rapid_records = 3 ∧
  stores (exec Samples.bets_down cycle []).2 = [] ∧
  (exec Samples.bets_down cycle []).1.2 = [] ∧
  (exec Samples.bets_down cycle []).1.2 ≠ Samples.rapid_records.
Proof.
  split; [exact (bets_down_is_partial_failure 0)|].
  repeat split; try reflexivity. discriminate.
Qed.

(** ** C2: both adapters fail, or the merger raises *)



(** The merger raising is a total failure too. *)
Lemma merge_fails_is_total_failure (i : nat) :
  total_failure (Samples.always Samples.merge_fails i).
Proof.
  right. exists Samples.bets_records, Samples.rapid_records, Samples.merge_error.
  repeat split; reflexivity.
Qed.


(** The same with the merger raising [KeyError]. *)
Example merge_failure_keeps_snapshot :
  exec Samples.merge_fails cycle Samples.rapid_records =
  (Returns tt, Samples.rapid_records,
   [EvLog INFO "Starting data fetch cycle";
    EvLog INFO "Fetching data from BetsAPI...";
    EvInvoke BetsapiPrematch;
    EvResume BetsapiPrematch (Returns Samples.bets_records);
    EvLog INFO "Fetched 1 records from BetsAPI";
    EvLog INFO "Fetching data from RapidAPI...";
    EvInvoke RapidInplayOddsFetcher;
    EvResume RapidInplayOddsFetcher (Returns Samples.rapid_records);
    EvLog INFO "Fetched 3 records from RapidAPI";
    EvLog INFO "Merging data from both APIs...";
    EvMerge Samples.bets_records Samples.rapid_records (Raises Samples.merge_error);
    EvLog ERROR "Error in fetch cycle: 'start_time'";
    EvPrintExc;
    EvSleep 10]).
Proof. reflexivity. Qed.

(** ** C3: the all-matches query *)

(** C3, as the code has it: the response to [GET /api/tennis] holds exactly
    two keys: ["matches"], the entities of the current snapshot in order,
    and ["timestamp"], the ISO form of the clock at the time of the request.
    The global is left as it was. *)
Theorem get_tennis_matches_response (σ : world) (g : list entity) :
  ∃ r tr,
    exec σ get_tennis_matches g = (Returns (VDict r), g, tr) ∧
    r !! "matches" = Some (VList (VDict <$> g)) ∧
    r !! "timestamp" = Some (VStr (isoformat (clock σ))) ∧
    dom r = {["timestamp"; "matches"]}.
Proof.
  do 2 eexists. split; [apply exec_get_tennis_matches|]. simpl. split; [|split].
  - rewrite lookup_insert_ne by discriminate. apply lookup_insert_eq.
  - apply lookup_insert_eq.
  - rewrite !dom_insert_L, dom_empty_L. set_solver.
Qed.

(** C3, counterexample: a snapshot published at noon and requested half an
    hour later comes with the timestamp of the request, not with the time
    it was produced. *)
Lemma timestamp_is_request_time :
  let published := exec Samples.healthy cycle [] in
  stores published.2 = [published.1.2] ∧
  isoformat (clock Samples.healthy) = "2024-01-01T12:00:00" ∧
  ∃ r, (exec Samples.healthy_later get_tennis_matches published.1.2).1.1 = Returns (VDict r) ∧
       r !! "timestamp" = Some (VStr "2024-01-01T12:30:00") ∧
       r !! "timestamp" ≠ Some (VStr (isoformat (clock Samples.healthy))).
Proof.
  cbv zeta. split; [reflexivity|]. split; [vm_compute; reflexivity|].
  eexists. split; [reflexivity|]. split; [vm_compute; reflexivity|].
  vm_compute. discriminate.
Qed.

(** ** C5: exceptions at the iteration boundary *)

(** C5, as the code has it: when every exception raised while fetching and
    merging is an instance of [Exception], no exception leaves an iteration:
    at every step the coroutine is still running, and every iteration
    number is reached at the top of the loop. *)
Theorem loop_survives_errors (Σ : nat → world) :
  (∀ i, errors_only (Σ i)) →
  (∀ n, ∃ k, refresher (fetch_tennis_data Σ n).1 = Running k) ∧
  (∀ i, ∃ n g, (fetch_tennis_data Σ n).1 = Process g (Running cycle) i).
Proof.
  unfold fetch_tennis_data. intros HΣ. split.
  - intros n.
    destruct (loop_steps_invariant Σ (on_course Σ) n initial
                (λ w, on_course_step Σ w HΣ) (on_course_initial Σ HΣ))
      as (k & _ & _ & Hk & _).
    exists k. exact Hk.
  - intros i. apply loop_reaches_iteration, HΣ.
Qed.

Lemma both_down_errors_only : ∀ i : nat, errors_only (Samples.always Samples.both_down i).
Proof.
  intros i. split.
  - intros a e H. inversion H. reflexivity.
  - intros x y e H. discriminate H.
Qed.

(** C5, witness: both providers down in every iteration. *)
Lemma loop_survives_errors_witness :
  (∀ i : nat, errors_only (Samples.always Samples.both_down i)) ∧
  (∀ n, ∃ k, refresher (fetch_tennis_data (Samples.always Samples.both_down) n).1 = Running k) ∧
  (∀ i, ∃ n g, (fetch_tennis_data (Samples.always Samples.both_down) n).1 =
               Process g (Running cycle) i).
Proof.
  split; [exact both_down_errors_only|].
  exact (loop_survives_errors (Samples.always Samples.both_down) both_down_errors_only).
Defined.

(** C5, counterexample: the BetsAPI adapter raises [SystemExit], which is
    not an [Exception]; the [except] clause does not handle it, it leaves
    the iteration, and after four steps the coroutine has exited. *)
Lemma system_exit_leaves_the_loop :
  isinstance_Exception Samples.system_exit = false ∧
  (exec Samples.bets_exits cycle []).1.1 = Raises Samples.system_exit ∧
  refresher (fetch_tennis_data (Samples.always Samples.bets_exits) 4).1 =
    Exited Samples.system_exit.
Proof. repeat split; reflexivity. Qed.

(** ** C6: the single-match query *)


(** ** C8: the order of the two fetches *)

(** C8, as the code has it: in every iteration the two fetches run one after
    the other.  BetsAPI is invoked first; RapidAPI is invoked only after
    BetsAPI has returned its records; the merger is called only after both
    have returned, on exactly their results; after a failure nothing more is
    invoked.  No fetch is ever invoked while another is pending. *)
Theorem fetches_are_sequential (σ : world) (g : list entity) :
  fetches_overlap (exec σ cycle g).2 = false ∧
  calls (exec σ cycle g).2 =
  match get_tennis_data σ BetsapiPrematch with
  | Raises e => [EvInvoke BetsapiPrematch; EvResume BetsapiPrematch (Raises e)]
  | Returns bets_data =>
      EvInvoke BetsapiPrematch :: EvResume BetsapiPrematch (Returns bets_data) ::
      EvInvoke RapidInplayOddsFetcher ::
      match get_tennis_data σ RapidInplayOddsFetcher with
      | Raises e => [EvResume RapidInplayOddsFetcher (Raises e)]
      | Returns rapid_data =>
          [EvResume RapidInplayOddsFetcher (Returns rapid_data);
           EvMerge bets_data rapid_data (merge σ bets_data rapid_data)]
      end
  end.
Proof.
  destruct (get_tennis_data σ BetsapiPrematch) as [bets_data|e1] eqn:H1.
  - destruct (get_tennis_data σ RapidInplayOddsFetcher) as [rapid_data|e2] eqn:H2.
    + destruct (merge σ bets_data rapid_data) as [merged_data|e3] eqn:H3.
      * run_cycle. split; reflexivity.
      * destruct (isinstance_Exception e3) eqn:I; run_cycle; split; reflexivity.
    + destruct (isinstance_Exception e2) eqn:I; run_cycle; split; reflexivity.
  - destruct (isinstance_Exception e1) eqn:I; run_cycle; split; reflexivity.
Qed.

(** The overlap test does see concurrency where there is some: two fetches
    started together, as [asyncio.gather] would start them. *)
Example gathered_fetches_overlap :
  fetches_overlap
    [EvInvoke BetsapiPrematch; EvInvoke RapidInplayOddsFetcher;
     EvResume RapidInplayOddsFetcher (Returns []);
     EvResume BetsapiPrematch (Returns [])] = true.
Proof. reflexivity. Qed.

(** C8, counterexample: with both providers answering, RapidAPI is invoked
    only after BetsAPI has been resumed; the two fetches do not overlap. *)
Lemma healthy_fetches_do_not_overlap :
  fetches_overlap (exec Samples.healthy cycle []).2 ≠ true ∧
  calls (exec Samples.healthy cycle []).2 =
    [EvInvoke BetsapiPrematch;
     EvResume BetsapiPrematch (Returns Samples.bets_records);
     EvInvoke RapidInplayOddsFetcher;
     EvResume RapidInplayOddsFetcher (Returns Samples.rapid_records);
     EvMerge Samples.bets_records Samples.rapid_records
       (Returns (Samples.bets_records ++ Samples.rapid_records))].
Proof. split; [discriminate|reflexivity]. Qed.

(** ** C9: before the first publication *)

(** C9: as long as the refresh coroutine has published nothing, [GET
    /api/tennis] answers with a well-formed response: the timestamp of the
    request and an empty list of matches. *)
Theorem get_tennis_matches_before_first_publication
    (Σ : nat → world) (ρ : world) (n : nat) :
  stores (fetch_tennis_data Σ n).2 = [] →
  exec ρ get_tennis_matches (tennis_matches (fetch_tennis_data Σ n).1) =
  (Returns (VDict (<["timestamp" := VStr (isoformat (clock ρ))]>
                   (<["matches" := VList []]> ∅))),
   [],
   [EvLog INFO "API request received. Current data length: 0"]).
Proof.
  unfold fetch_tennis_data. intros H.
  rewrite (loop_steps_no_store Σ n initial H). reflexivity.
Qed.

(** C9, witness: twenty steps into a process whose providers are down. *)
Lemma get_tennis_matches_before_first_publication_witness :
  stores (fetch_tennis_data (Samples.always Samples.both_down) 20).2 = [] ∧
  exec Samples.healthy get_tennis_matches
    (tennis_matches (fetch_tennis_data (Samples.always Samples.both_down) 20).1) =
  (Returns (VDict (<["timestamp" := VStr (isoformat (clock Samples.healthy))]>
                   (<["matches" := VList []]> ∅))),
   [],
   [EvLog INFO "API request received. Current data length: 0"]).
Proof.
  split; [reflexivity|].
  apply (get_tennis_matches_before_first_publication (Samples.always Samples.both_down) Samples.healthy 20).
  reflexivity.
Defined.

(** ** C10: duplicate ids *)

(** C10: the single-match query returns the first entity, in snapshot
    order, whose ["match_id"] is the requested string, whatever follows it:
    of several entities with the same id, the first one. *)
Theorem get_match_details_returns_first
    (σ : world) (before after : list entity) (m : entity) (match_id : string) :
  m !! "match_id" = Some (VStr match_id) →
  (∀ m', m' ∈ before → m' !! "match_id" ≠ Some (VStr match_id)) →
  exec σ (get_match_details match_id) (before ++ m :: after) =
  (Returns (VDict m), before ++ m :: after, []).
Proof.
  intros Hm Hb. rewrite exec_get_match_details. simpl.
  assert (find_match match_id (before ++ m :: after) = Some m) as ->; [|reflexivity].
  apply find_match_Some. exists before, after. auto.
Qed.

(** C10, witness: the id ["7"] occurs twice; the query returns the first. *)
Lemma get_match_details_returns_first_witness :
  Samples.with_duplicate =
    [Samples.a_match "3" "live"] ++ Samples.a_match "7" "first" :: [Samples.a_match "7" "second"] ∧
  exec Samples.healthy (get_match_details "7") Samples.with_duplicate =
  (Returns (VDict (Samples.a_match "7" "first")), Samples.with_duplicate, []).
Proof.
  split; [reflexivity|].
  apply (get_match_details_returns_first Samples.healthy
           [Samples.a_match "3" "live"] [Samples.a_match "7" "second"]
           (Samples.a_match "7" "first") "7").
  - reflexivity.
  - intros m' Hin. apply list_elem_of_singleton in Hin. subst m'. vm_compute. discriminate.
Defined.

(** * Further properties of [main_api.py] *)

(** ** What an iteration does, case by case *)

(** An iteration either gets to line 112 or meets a first exception. *)
Lemma published_or_failed (σ : world) :
  (∃ merged_data, published_by σ = Some merged_data ∧ first_failure σ = None) ∨
  (∃ e, first_failure σ = Some e ∧ published_by σ = None).
Proof.
  unfold published_by, first_failure.
  destruct (get_tennis_data σ BetsapiPrematch) as [bets_data|e1]; [|eauto].
  destruct (get_tennis_data σ RapidInplayOddsFetcher) as [rapid_data|e2]; [|eauto].
  destruct (merge σ bets_data rapid_data) as [merged_data|e3]; eauto.
Qed.

(** Splits [get_tennis_data] and [merge] of [σ] into their outcomes and
    drops the cases that contradict the hypothesis [H]. *)
Ltac split_world σ H :=
  destruct (get_tennis_data σ BetsapiPrematch) eqn:?;
  [destruct (get_tennis_data σ RapidInplayOddsFetcher) eqn:?;
   [match goal with
    | _ : get_tennis_data σ BetsapiPrematch = Returns ?b,
      _ : get_tennis_data σ RapidInplayOddsFetcher = Returns ?r |- _ =>
        destruct (merge σ b r) eqn:?
    end|]|];
  try discriminate H; inversion H; subst; clear H.

Lemma cycle_published (σ : world) (g merged_data : list entity) :
  published_by σ = Some merged_data →
  ∃ tr, exec σ cycle g = (Returns tt, merged_data, tr) ∧
        stores tr = [merged_data] ∧ sleeps tr = [cooldown] ∧
        error_logs tr = [] ∧ tracebacks tr = 0.
Proof.
  unfold published_by. intros H. split_world σ H.
  eexists. run_cycle. repeat split; reflexivity.
Qed.

Lemma cycle_failed (σ : world) (g : list entity) (e : exn) :
  first_failure σ = Some e → isinstance_Exception e = true →
  ∃ tr, exec σ cycle g = (Returns tt, g, tr) ∧
        stores tr = [] ∧ sleeps tr = [backoff] ∧
        error_logs tr = ["Error in fetch cycle: " +:+ exn_str e] ∧ tracebacks tr = 1.
Proof.
  unfold first_failure. intros H I. split_world σ H;
    eexists; run_cycle; repeat split; reflexivity.
Qed.

Lemma cycle_escaped (σ : world) (g : list entity) (e : exn) :
  first_failure σ = Some e → isinstance_Exception e = false →
  ∃ tr, exec σ cycle g = (Raises e, g, tr) ∧
        stores tr = [] ∧ sleeps tr = [] ∧ error_logs tr = [] ∧ tracebacks tr = 0.
Proof.
  unfold first_failure. intros H I. split_world σ H;
    eexists; run_cycle; repeat split; reflexivity.
Qed.

Lemma first_failure_error (σ : world) (e : exn) :
  errors_only σ → first_failure σ = Some e → isinstance_Exception e = true.
Proof.
  intros [Hget Hmerge]. unfold first_failure. intros H. split_world σ H; eauto.
Qed.

(** With nothing but [Exception]s around, an iteration ends normally and
    leaves the global at what it published, or as it was. *)
Lemma cycle_leaves (σ : world) (g : list entity) :
  errors_only σ →
  ∃ tr, exec σ cycle g = (Returns tt, default g (published_by σ), tr).
Proof.
  intros Hσ. destruct (published_or_failed σ) as [(m & Hp & _)|(e & Hf & Hp)].
  - destruct (cycle_published σ g m Hp) as (tr & E & _). rewrite Hp. eauto.
  - destruct (cycle_failed σ g e Hf (first_failure_error σ e Hσ Hf)) as (tr & E & _).
    rewrite Hp. eauto.
Qed.

(** X1: every iteration goes one of three ways.  It publishes the merger's
    result in one store, sleeps the cooldown and logs no error; or it meets
    a first exception that is an [Exception], leaves the global alone, logs
    that exception once with one traceback and sleeps the backoff; or the
    first exception is not an [Exception] and leaves the iteration with the
    global untouched, nothing logged as an error and no sleep at all. *)
Theorem iteration_outcomes (σ : world) (g : list entity) :
  ∃ tr,
    (∃ merged_data,
       published_by σ = Some merged_data ∧
       exec σ cycle g = (Returns tt, merged_data, tr) ∧
       stores tr = [merged_data] ∧ sleeps tr = [cooldown] ∧
       error_logs tr = [] ∧ tracebacks tr = 0) ∨
    (∃ e,
       first_failure σ = Some e ∧ isinstance_Exception e = true ∧
       exec σ cycle g = (Returns tt, g, tr) ∧
       stores tr = [] ∧ sleeps tr = [backoff] ∧
       error_logs tr = ["Error in fetch cycle: " +:+ exn_str e] ∧ tracebacks tr = 1) ∨
    (∃ e,
       first_failure σ = Some e ∧ isinstance_Exception e = false ∧
       exec σ cycle g = (Raises e, g, tr) ∧
       stores tr = [] ∧ sleeps tr = [] ∧ error_logs tr = [] ∧ tracebacks tr = 0).
Proof.
  destruct (published_or_failed σ) as [(m & Hp & _)|(e & Hf & _)].
  - destruct (cycle_published σ g m Hp) as (tr & H). exists tr. left. eauto.
  - destruct (isinstance_Exception e) eqn:I.
    + destruct (cycle_failed σ g e Hf I) as (tr & H). exists tr. right. left. eauto.
    + destruct (cycle_escaped σ g e Hf I) as (tr & H). exists tr. right. right. eauto.
Qed.

(** ** The global over the life of the process *)

(** X3: when the adapters and the merger raise nothing but [Exception]s,
    the coroutine reaches the top of every iteration [i] with the global
    holding the result of the latest iteration before [i] that published
    (the empty list if none did), and that is what [GET /api/tennis]
    answers with there. *)
Theorem latest_snapshot_is_served (Σ : nat → world) (ρ : world) (i : nat) :
  (∀ j, errors_only (Σ j)) →
  ∃ n,
    (fetch_tennis_data Σ n).1 = Process (latest_snapshot Σ i) (Running cycle) i ∧
    (exec ρ get_tennis_matches (tennis_matches (fetch_tennis_data Σ n).1)).1.1 =
      Returns (answer AllMatches (clock ρ) (latest_snapshot Σ i)).
Proof.
  intros HΣ. unfold fetch_tennis_data.
  assert (∃ n, (loop_steps Σ n initial).1 = Process (latest_snapshot Σ i) (Running cycle) i)
    as [n Hn].
  { induction i as [|i [n IH]]; [exists 0; reflexivity|].
    destruct (cycle_leaves (Σ i) (latest_snapshot Σ i) (HΣ i)) as (tr & E).
    exists (n + S (steps_left (Σ i) cycle (latest_snapshot Σ i))).
    rewrite loop_steps_add. destruct (loop_steps Σ n initial) as [w1 t1].
    simpl in IH. subst w1. rewrite (loop_steps_cycle Σ _ _ _ _ E). reflexivity. }
  exists n. split; [exact Hn|]. rewrite Hn. reflexivity.
Qed.

Lemma healthy_once_errors (j : nat) : errors_only (Samples.healthy_once j).
Proof.
  destruct j as [|j]; split.
  - intros a e H. destruct a; discriminate H.
  - intros x y e H. discriminate H.
  - intros a e H. inversion H. reflexivity.
  - intros x y e H. discriminate H.
Qed.

(** X3, witness: the first iteration publishes four entities and the
    providers are down from then on; the fourth iteration begins with those
    four entities in the global, and they are what the query answers with. *)
Lemma latest_snapshot_is_served_witness :
  (∀ j, errors_only (Samples.healthy_once j)) ∧
  latest_snapshot Samples.healthy_once 3 = Samples.bets_records ++ Samples.rapid_records ∧
  ∃ n,
    (fetch_tennis_data Samples.healthy_once n).1 =
      Process (latest_snapshot Samples.healthy_once 3) (Running cycle) 3 ∧
    (exec Samples.healthy_later get_tennis_matches
       (tennis_matches (fetch_tennis_data Samples.healthy_once n).1)).1.1 =
      Returns (answer AllMatches (clock Samples.healthy_later)
                 (latest_snapshot Samples.healthy_once 3)).
Proof.
  split; [exact healthy_once_errors|]. split; [reflexivity|].
  exact (latest_snapshot_is_served Samples.healthy_once Samples.healthy_later 3
           healthy_once_errors).
Defined.

(** Once the coroutine has exited, no step does anything. *)
Lemma exited_is_final (Σ : nat → world) (n : nat) (g : list entity) (e : exn) (i : nat) :
  loop_steps Σ n (Process g (Exited e) i) = (Process g (Exited e) i, []).
Proof.
  induction n as [|n IH]; [reflexivity|].
  rewrite loop_steps_S. unfold loop_step. simpl. rewrite IH. reflexivity.
Qed.

(** X4: when the first exception of iteration [i] is not an [Exception],
    the coroutine exits and stays exited: from then on every number of steps
    finds the same process, with the global as it was before the iteration;
    the exception is neither logged as an error nor followed by a sleep. *)
Theorem uncaught_exception_ends_refresh
    (Σ : nat → world) (i : nat) (g : list entity) (e : exn) :
  first_failure (Σ i) = Some e →
  isinstance_Exception e = false →
  ∃ tr,
    (∀ n, steps_left (Σ i) cycle g < n →
          loop_steps Σ n (Process g (Running cycle) i) = (Process g (Exited e) i, tr)) ∧
    stores tr = [] ∧ sleeps tr = [] ∧ error_logs tr = [].
Proof.
  intros Hf I.
  destruct (cycle_escaped (Σ i) g e Hf I) as (tr & E & Hst & Hsl & Hlog & _).
  exists tr. repeat split; try assumption.
  intros n Hn.
  replace n with (S (steps_left (Σ i) cycle g) + (n - S (steps_left (Σ i) cycle g))) by lia.
  rewrite loop_steps_add, (loop_steps_escape Σ _ _ _ _ _ E), exited_is_final.
  rewrite app_nil_r. reflexivity.
Qed.

(** X4, witness: the BetsAPI adapter raises [SystemExit] in the first
    iteration. *)
Lemma uncaught_exception_ends_refresh_witness :
  first_failure (Samples.always Samples.bets_exits 0) = Some Samples.system_exit ∧
  isinstance_Exception Samples.system_exit = false ∧
  ∃ tr,
    (∀ n, steps_left (Samples.always Samples.bets_exits 0) cycle Samples.rapid_records < n →
          loop_steps (Samples.always Samples.bets_exits) n
            (Process Samples.rapid_records (Running cycle) 0) =
          (Process Samples.rapid_records (Exited Samples.system_exit) 0, tr)) ∧
    stores tr = [] ∧ sleeps tr = [] ∧ error_logs tr = [].
Proof.
  split; [reflexivity|]. split; [reflexivity|].
  apply (uncaught_exception_ends_refresh (Samples.always Samples.bets_exits) 0
           Samples.rapid_records Samples.system_exit); reflexivity.
Defined.

(** ** The single-match query on what the loop published *)

(** The scan over a concatenation: the front part first, then the rest. *)
Lemma find_match_app (match_id : string) (g1 g2 : list entity) :
  find_match match_id (g1 ++ g2) =
  match find_match match_id g1 with
  | Some m => Some m
  | None => find_match match_id g2
  end.
Proof.
  induction g1 as [|x g1 IH]; simpl; [reflexivity|].
  destruct (eq_str (dict_get x "match_id") match_id); [reflexivity|exact IH].
Qed.

(** The response says which case the scan ended in: a dictionary is a hit. *)
Lemma get_match_details_hit (σ : world) (match_id : string) (g : list entity) (m : entity) :
  (exec σ (get_match_details match_id) g).1.1 = Returns (VDict m) →
  find_match match_id g = Some m.
Proof.
  rewrite exec_get_match_details. simpl.
  destruct (find_match match_id g) as [m'|]; intros H; [|discriminate H].
  inversion H. reflexivity.
Qed.

(** X5: publishing and looking up fit together.  When an iteration
    publishes a list in which one entity only carries the string [match_id]
    as its id, the single-match query for that id, run on the global the
    iteration leaves behind, returns that very entity. *)
Theorem published_entity_is_retrievable
    (σ ρ : world) (g merged_data : list entity) (m : entity) (match_id : string) :
  published_by σ = Some merged_data →
  m ∈ merged_data →
  m !! "match_id" = Some (VStr match_id) →
  (∀ m', m' ∈ merged_data → m' !! "match_id" = Some (VStr match_id) → m' = m) →
  (exec ρ (get_match_details match_id) (exec σ cycle g).1.2).1.1 = Returns (VDict m).
Proof.
  intros Hp Hin Hid Huniq.
  destruct (cycle_published σ g merged_data Hp) as (tr & E & _). rewrite E.
  cbn [fst snd]. rewrite exec_get_match_details. simpl.
  destruct (find_match match_id merged_data) as [m'|] eqn:F.
  - apply find_match_Some in F as (before & after & Hg & Hm' & _).
    rewrite (Huniq m'); [reflexivity| |exact Hm'].
    rewrite Hg. apply elem_of_app. right. apply elem_of_cons. left. reflexivity.
  - exfalso. apply (proj1 (find_match_None match_id merged_data) F m Hin Hid).
Qed.

(** X5, witness: the healthy world publishes four entities with four ids;
    the one with id ["r2"] is found. *)
Lemma published_entity_is_retrievable_witness :
  published_by Samples.healthy = Some (Samples.bets_records ++ Samples.rapid_records) ∧
  Samples.a_match "r2" "live" ∈ Samples.bets_records ++ Samples.rapid_records ∧
  (exec Samples.healthy_later (get_match_details "r2")
     (exec Samples.healthy cycle []).1.2).1.1 =
    Returns (VDict (Samples.a_match "r2" "live")).
Proof.
  split; [reflexivity|].
  assert (Hin : Samples.a_match "r2" "live" ∈ Samples.bets_records ++ Samples.rapid_records).
  { unfold Samples.bets_records, Samples.rapid_records. simpl. do 2 right. left. }
  split; [exact Hin|].
  apply (published_entity_is_retrievable Samples.healthy Samples.healthy_later []
           (Samples.bets_records ++ Samples.rapid_records)).
  - reflexivity.
  - exact Hin.
  - reflexivity.
  - intros m' Hm' Hid. unfold Samples.bets_records, Samples.rapid_records in Hm'.
    simpl in Hm'.
    repeat (apply elem_of_cons in Hm' as [->|Hm']);
      try reflexivity; try (vm_compute in Hid; discriminate Hid).
    inversion Hm'.
Defined.

(** X6: an answer, once found, is stable.  If the single-match query
    returns an entity on a snapshot, it returns the same entity on that
    snapshot with anything appended behind it and with entities of other
    ids put in front of it. *)
Theorem found_match_is_stable
    (σ : world) (match_id : string) (front g extra : list entity) (m : entity) :
  (exec σ (get_match_details match_id) g).1.1 = Returns (VDict m) →
  (∀ m', m' ∈ front → m' !! "match_id" ≠ Some (VStr match_id)) →
  (exec σ (get_match_details match_id) (front ++ g ++ extra)).1.1 = Returns (VDict m).
Proof.
  intros Hhit Hfront. apply get_match_details_hit in Hhit.
  rewrite exec_get_match_details. simpl.
  rewrite !find_match_app, Hhit.
  rewrite (proj2 (find_match_None match_id front) Hfront). reflexivity.
Qed.

(** X6, witness: the id ["7"] of the sample snapshot, with an entity of
    another id in front and a third entity of id ["7"] behind. *)
Lemma found_match_is_stable_witness :
  (exec Samples.healthy (get_match_details "7") Samples.with_duplicate).1.1 =
    Returns (VDict (Samples.a_match "7" "first")) ∧
  (exec Samples.healthy (get_match_details "7")
     ([Samples.a_match "5" "live"] ++ Samples.with_duplicate ++ [Samples.a_match "7" "third"])).1.1 =
    Returns (VDict (Samples.a_match "7" "first")).
Proof.
  split; [reflexivity|].
  apply (found_match_is_stable Samples.healthy "7" [Samples.a_match "5" "live"]
           Samples.with_duplicate [Samples.a_match "7" "third"]).
  - reflexivity.
  - intros m' Hm'. apply list_elem_of_singleton in Hm'. subst m'. vm_compute. discriminate.
Defined.

Lemma has_string_id_false (m : entity) (match_id : string) :
  has_string_id m = false → eq_str (dict_get m "match_id") match_id = false.
Proof.
  unfold has_string_id. destruct (dict_get m "match_id"); simpl; congruence.
Qed.

(** X7: entities without a string id are invisible to the single-match
    query.  An entity that has no ["match_id"] key, or holds a number, [None]
    or anything but a string there, is skipped by the scan without an
    error: dropping all such entities from the snapshot changes the
    response to no request. *)
Theorem entities_without_string_id_are_skipped
    (σ : world) (match_id : string) (g : list entity) :
  (exec σ (get_match_details match_id) (List.filter has_string_id g)).1.1 =
  (exec σ (get_match_details match_id) g).1.1.
Proof.
  rewrite !exec_get_match_details. simpl. f_equal.
  assert (find_match match_id (List.filter has_string_id g) = find_match match_id g) as ->;
    [|reflexivity].
  induction g as [|x g IH]; simpl; [reflexivity|].
  destruct (has_string_id x) eqn:Hx; simpl.
  - rewrite IH. reflexivity.
  - rewrite (has_string_id_false x match_id Hx). exact IH.
Qed.

(** ** The React routes *)

(** [startswith] holds exactly of the strings that continue the prefix. *)
Lemma prefix_app (p s : string) : String.prefix p s = true ↔ ∃ rest, s = p +:+ rest.
Proof.
  revert s. induction p as [|a p IH]; intros s.
  - destruct s; simpl; split; eauto.
  - destruct s as [|b s]; simpl.
    + split; [discriminate|]. intros [rest H]. discriminate H.
    + destruct (Ascii.ascii_dec a b) as [->|Hab].
      * rewrite IH. split; intros [rest H]; exists rest; [rewrite H; reflexivity|].
        inversion H. reflexivity.
      * split; [discriminate|]. intros [rest H]. inversion H. congruence.
Qed.

(** X8: the catch-all route refuses exactly the paths that continue
    ["api/"], with a 404 whose detail is ["API endpoint not found"]; every
    other path, whatever it is, gets the response of the root route, the
    [index.html] of the React build. *)
Theorem serve_react_routes_spec (index_html full_path : string) :
  ((∃ rest, full_path = "api/" +:+ rest) ∧
   React.serve_react_routes index_html full_path =
     React.RaiseHTTPException 404 "API endpoint not found") ∨
  ((∀ rest, full_path ≠ "api/" +:+ rest) ∧
   React.serve_react_routes index_html full_path = React.serve_react_app index_html).
Proof.
  unfold React.serve_react_routes, React.serve_react_app.
  destruct (String.prefix "api/" full_path) eqn:E.
  - left. split; [apply prefix_app, E|reflexivity].
  - right. split; [|reflexivity]. intros rest H.
    assert (String.prefix "api/" full_path = true) by (apply prefix_app; eauto).
    congruence.
Qed.

(** ** Requests are answered without waiting *)

Lemma handler_returns_within (q : request) : returns_within 4 (handler q).
Proof.
  destruct q as [|match_id]; cbn.
  - apply within_load. intros g1. apply within_logger, within_now. intros t.
    apply within_load. intros g. apply within_ret.
  - apply within_load. intros g. destruct (find_match match_id g); cbn; apply within_ret.
Qed.




(** ** C4: what a reader can observe *)

(** The stores of an iteration are what it has to store. *)
Lemma cycle_stores_exact (σ : world) (g : list entity) :
  stores (exec σ cycle g).2 = to_store σ.
Proof.
  destruct (published_or_failed σ) as [(m & Hp & _)|(e & Hf & Hp)].
  - destruct (cycle_published σ g m Hp) as (tr & E & Hst & _).
    unfold to_store. rewrite Hp, E. exact Hst.
  - unfold to_store. rewrite Hp. destruct (isinstance_Exception e) eqn:I.
    + destruct (cycle_failed σ g e Hf I) as (tr & E & Hst & _). rewrite E. exact Hst.
    + destruct (cycle_escaped σ g e Hf I) as (tr & E & Hst & _). rewrite E. exact Hst.
Qed.

Section Phases.
Context (Σ : nat → world).

Lemma in_phase_initial : in_phase Σ initial.
Proof. left. split; [reflexivity|apply cycle_stores_exact]. Qed.

Lemma in_phase_previous_or_new (w : process) : in_phase Σ w → previous_or_new Σ w.
Proof.
  unfold in_phase, previous_or_new. destruct (refresher w); [|auto].
  intros [[H _]|[H _]]; auto.
Qed.

(** A step of the coroutine keeps the phase, and changes the global only
    by taking it from the previous snapshot to the new one. *)
Lemma in_phase_step (w : process) :
  in_phase Σ w →
  in_phase Σ (loop_step Σ w).1 ∧
  (tennis_matches (loop_step Σ w).1 = tennis_matches w ∨
   (iteration (loop_step Σ w).1 = iteration w ∧
    tennis_matches w = latest_snapshot Σ (iteration w) ∧
    published_by (Σ (iteration w)) = Some (tennis_matches (loop_step Σ w).1))).
Proof.
  destruct w as [g [k|e] i]; unfold in_phase; simpl.
  2:{ intros H. split; [exact H|left; reflexivity]. }
  intros H.
  destruct (running_cases (Σ i) k g) as [->|[[e ->]|(k' & g1 & evs & Hs)]].
  - simpl. split; [|left; reflexivity]. left. split; [|apply cycle_stores_exact].
    simpl in H. unfold to_store in H.
    destruct H as [[Hg Hst]|[Hp _]].
    + destruct (published_by (Σ i)); [discriminate Hst|exact Hg].
    + rewrite Hp. reflexivity.
  - simpl. split; [|left; reflexivity]. unfold previous_or_new. simpl.
    destruct H as [[Hg _]|[Hp _]]; auto.
  - rewrite (loop_step_running Σ _ _ _ _ _ _ Hs). simpl.
    rewrite (exec_step _ _ _ _ _ _ Hs) in H.
    destruct (exec (Σ i) k' g1) as [[o g2] tr2] eqn:E. simpl in H.
    rewrite stores_app in H.
    destruct (step_stores _ _ _ _ _ _ Hs) as [[-> Hev]|Hev]; rewrite Hev in H; simpl in H.
    + split; [exact H|left; reflexivity].
    + destruct H as [[Hg Hst]|[_ Hst]]; [|discriminate Hst].
      unfold to_store in Hst.
      destruct (published_by (Σ i)) as [m|] eqn:Hp; [|discriminate Hst].
      inversion Hst; subst. split; [right; split; reflexivity|].
      right. repeat split; assumption.
Qed.

End Phases.

Section Reading.
Context (Σ : nat → world) (ρ : world).

(** A handler state that never stores: [returns_within] at some bound. *)
Lemma returns_within_step (n : nat) (k k' : prog pyval) (g g1 : list entity) (evs : list event) :
  returns_within n k → step ρ k g = Some (k', g1, evs) →
  g1 = g ∧ returns_within (pred n) k'.
Proof.
  intros Hk Hs. destruct Hk; simpl in Hs; inversion Hs; subst; simpl; auto.
Qed.

(** The invariant of the system: the coroutine is in phase and the request
    in flight only reads. *)
Lemma system_invariant (q : request) (sched : list turn) :
  let s := system_run Σ ρ sched (initial, handler q) in
  in_phase Σ s.1 ∧ ∃ n, returns_within n s.2.
Proof.
  assert (∀ s, (in_phase Σ s.1 ∧ ∃ n, returns_within n s.2) →
               in_phase Σ (system_run Σ ρ sched s).1 ∧
               ∃ n, returns_within n (system_run Σ ρ sched s).2) as Hrun.
  { induction sched as [|t sched IH]; intros s Hs; [exact Hs|].
    apply IH. destruct s as [w k]. destruct Hs as [Hw [n Hk]]. destruct t; simpl in *.
    - split; [apply in_phase_step, Hw|eauto].
    - destruct (step ρ k (tennis_matches w)) as [[[k' g1] evs]|] eqn:Hs; [|eauto].
      destruct (returns_within_step _ _ _ _ _ _ Hk Hs) as [-> Hk'].
      split; [destruct w; exact Hw|eauto]. }
  apply Hrun. split; [apply in_phase_initial|]. exists 4. apply handler_returns_within.
Qed.

Lemma handler_reads_after (q : request) : reads_after ρ q (reading_turn q) (handler q).
Proof.
  destruct q as [|match_id]; cbn.
  - intros g1. do 2 eexists. split; [reflexivity|].
    intros g2. do 2 eexists. split; [reflexivity|].
    intros g3. do 2 eexists. split; [reflexivity|].
    intros g. eexists. reflexivity.
  - intros g. exists []. destruct (find_match match_id g); reflexivity.
Qed.

(** Turns before the reading turn bring the handler to the reading turn. *)
Lemma run_to_reading_turn (q : request) (sched : list turn) :
  ∀ (n : nat) (k : prog pyval) (w : process),
    reads_after ρ q n k → handler_turns sched = n →
    reads_after ρ q 0 (system_run Σ ρ sched (w, k)).2.
Proof.
  induction sched as [|t sched IH]; intros n k w Hk Hn.
  - unfold handler_turns in Hn. simpl in Hn. subst n. exact Hk.
  - destruct t.
    + apply (IH n k _ Hk). exact Hn.
    + unfold handler_turns in Hn. simpl in Hn. fold (handler_turns sched) in Hn.
      destruct n as [|n]; [discriminate Hn|].
      change (system_run Σ ρ (Handler :: sched) (w, k))
        with (system_run Σ ρ sched (system_step Σ ρ Handler (w, k))).
      simpl in Hk. destruct (Hk (tennis_matches w)) as (k' & evs & Hs & Hk').
      simpl. rewrite Hs. apply (IH n k' _ Hk'). lia.
Qed.

(** A response, once returned, stays. *)
Lemma returned_stays (sched : list turn) (w : process) (r : pyval) :
  (system_run Σ ρ sched (w, Ret r)).2 = Ret r.
Proof.
  revert w. induction sched as [|t sched IH]; intros w; [reflexivity|].
  destruct t; apply IH.
Qed.

End Reading.

(** C4: let the refresh coroutine and the handler of a request take turns
    in any order from the start of the process.  (1) At every point the
    global holds the previous snapshot or the new one: the list the latest
    earlier publishing iteration stored, or the whole list the merger
    returned in the current iteration; never anything in between.  (2) A
    turn that changes the global is the refresher's and takes the global
    from the previous snapshot to the new one in that single step; a
    handler's turn never changes it.  (3) The response of the request is the
    query's answer on the global exactly as it stood at the handler's
    reading turn, which is the previous or the new snapshot of that moment,
    and no later step of the coroutine changes the response. *)
Theorem readers_see_complete_snapshots
    (Σ : nat → world) (ρ : world) (q : request) (sched : list turn) :
  let s := system_run Σ ρ sched (initial, handler q) in
  previous_or_new Σ s.1 ∧
  (∀ t, let s' := system_step Σ ρ t s in
        tennis_matches s'.1 = tennis_matches s.1 ∨
        (t = Refresher ∧
         iteration s'.1 = iteration s.1 ∧
         tennis_matches s.1 = latest_snapshot Σ (iteration s.1) ∧
         published_by (Σ (iteration s.1)) = Some (tennis_matches s'.1))) ∧
  (∀ before after,
     sched = before ++ Handler :: after →
     handler_turns before = reading_turn q →
     let seen := (system_run Σ ρ before (initial, handler q)).1 in
     previous_or_new Σ seen ∧
     s.2 = Ret (answer q (clock ρ) (tennis_matches seen))).
Proof.
  intros s. destruct (system_invariant Σ ρ q sched) as [Hw [n Hk]]. fold s in Hw, Hk.
  split; [apply in_phase_previous_or_new, Hw|]. split.
  - intros t s'. subst s'. destruct t; simpl.
    + destruct (in_phase_step Σ s.1 Hw) as [_ [H|H]]; [left; exact H|right; auto].
    + left. destruct s as [w k]; simpl in *.
      destruct (step ρ k (tennis_matches w)) as [[[k' g1] evs]|] eqn:Hs; [|reflexivity].
      destruct (returns_within_step ρ _ _ _ _ _ _ Hk Hs) as [-> _]. reflexivity.
  - intros before after Hsched Hturns seen.
    split; [apply in_phase_previous_or_new, (system_invariant Σ ρ q before)|].
    subst s seen. rewrite Hsched. unfold system_run at 1. rewrite foldl_app. simpl.
    fold (system_run Σ ρ before (initial, handler q)).
    pose proof (run_to_reading_turn Σ ρ q before _ (handler q) initial
                  (handler_reads_after ρ q) Hturns) as Hread.
    destruct (system_run Σ ρ before (initial, handler q)) as [w k]. simpl in *.
    destruct (Hread (tennis_matches w)) as [evs Hs]. rewrite Hs.
    apply returned_stays.
Qed.

(** A request that overlaps a publication: the handler loads the empty
    global for its log line, the coroutine then runs up to and including
    line 112, and the handler's second load, three turns later, finds the
    new snapshot, whole. *)
Example reader_overlapping_a_publication :
  (system_run (Samples.always Samples.healthy) Samples.healthy_later
     ([Handler] ++ replicate 11 Refresher ++ [Handler; Handler; Handler])
     (initial, handler AllMatches)).2 =
  Ret (answer AllMatches Samples.half_past_noon
         (Samples.bets_records ++ Samples.rapid_records)).
Proof. reflexivity. Qed.

(** One refresher turn earlier the same request still gets the previous
    snapshot, the empty list: there is nothing in between. *)
Example reader_just_before_a_publication :
  (system_run (Samples.always Samples.healthy) Samples.healthy_later
     ([Handler] ++ replicate 10 Refresher ++ [Handler; Handler; Handler])
     (initial, handler AllMatches)).2 =
  Ret (answer AllMatches Samples.half_past_noon []).
Proof. reflexivity. Qed.
